(** * Verification of the Fibonacci Durable Object (src/index.ts)

    A shallow embedding of [MyDurableObject.getCounter]: the actor reads
    the two storage slots ['current'] and ['previous'], computes the next
    element of the sequence 2, 3, 5, 8, ..., shifts the slots and returns
    both snapshots.

    Modelling choices
    - a TypeScript [number] is an IEEE 754 binary64 value: the counter is
      a primitive [float], and [+] is [PrimFloat.add] (round to nearest
      even, saturating at [infinity]);
    - [Date.now()] is an input of the invocation: an integer number of
      milliseconds, only stored and compared, kept as a [Z];
    - the actor's private storage is a finite map from key to record;
    - [await]ed storage calls may reject: the embedding threads the
      storage and a schedule of upcoming rejections through a small
      state-and-exception monad. *)

From Stdlib Require Import ZArith List Sorted.
From Stdlib Require Import Floats.PrimFloat Uint63.
From Stdlib Require Floats.SpecFloat Floats.FloatOps.
From stdpp Require Import base option gmap strings list fin_maps.

(** ** Data model (src/index.ts, lines 17-37) *)

Record LocationInfo := mkLocationInfo {
  city : string;
  country : string;
  region : string;
  timezone : string;
  latitude : string;
  longitude : string;
  postalCode : string;
  colo : string
}.

Record StoredData := mkStoredData {
  counter : float;
  location : LocationInfo;
  timestamp : Z
}.

Record ResponseData := mkResponseData {
  current : StoredData;
  previous : option StoredData   (* [None] is the JSON [null] *)
}.

(** ** JavaScript number semantics used by the source *)

Module JS.

(** [ToBoolean] on a number: [0], [-0] and [NaN] are falsy. *)
Definition truthy (x : float) : bool :=
  negb (PrimFloat.is_zero x || PrimFloat.is_nan x).

(** [x || d] where [x] is a number or [undefined] ([None]). *)
Definition or_else (x : option float) (d : float) : float :=
  match x with
  | Some v => if truthy v then v else d
  | None => d
  end.

(** [+] on numbers. *)
Definition plus (x y : float) : float := PrimFloat.add x y.

(** [===] on numbers (IEEE equality: [NaN] differs from itself). *)
Definition strict_eq (x y : float) : bool := PrimFloat.eqb x y.

(** [<] and [<=] on numbers. *)
Definition lt (x y : float) : bool := PrimFloat.ltb x y.
Definition le (x y : float) : bool := PrimFloat.leb x y.

(** [Number.isFinite]. *)
Definition isFinite (x : float) : bool := PrimFloat.is_finite x.

End JS.

(** ** The durable storage and the invocation monad *)

(** A settled promise: fulfilled with a value, or rejected. *)
Inductive result (A : Type) : Type :=
  | Ok (a : A)
  | Rejected.
Arguments Ok {A} a.
Arguments Rejected {A}.

(** The actor's world: its private durable storage, and the outcomes of
    the storage calls still to come ([true]: the call rejects).  An
    exhausted schedule means that every further call succeeds. *)
Record DurableObjectState := mkState {
  storage : gmap string StoredData;
  faults : list bool
}.

Definition Async (A : Type) : Type :=
  DurableObjectState -> result A * DurableObjectState.

Definition resolve {A} (a : A) : Async A := fun w => (Ok a, w).

(** [await m; k]: a rejection of [m] rejects the whole invocation; the
    storage keeps whatever was written before. *)
Definition await {A B} (m : Async A) (k : A -> Async B) : Async B :=
  fun w =>
    match m w with
    | (Ok a, w') => k a w'
    | (Rejected, w') => (Rejected, w')
    end.

Notation "'let_await' x ':=' m 'in' k" := (await m (fun x => k))
  (at level 10, x name, m at level 100, k at level 200).
Notation "'do_await' m 'then' k" := (await m (fun _ => k))
  (at level 10, m at level 100, k at level 200).

(** Consume the outcome of the next storage call. *)
Definition next_fault (w : DurableObjectState) : bool * DurableObjectState :=
  match faults w with
  | [] => (false, w)
  | b :: fs => (b, mkState (storage w) fs)
  end.

(** Modelled from the spec: the platform's [ctx.storage.get] (section 4.1):
    returns the last record written under [key], or absent; a failed read
    rejects and mutates nothing. *)
Definition storage_get (key : string) : Async (option StoredData) :=
  fun w =>
    let '(failed, w') := next_fault w in
    if failed then (Rejected, w') else (Ok (storage w' !! key), w').

(** Modelled from the spec: the platform's [ctx.storage.put] (section 4.1):
    durably persists [record] under [key]; each put either fully succeeds
    or fully fails, and a failure rejects the invocation. *)
Definition storage_put (key : string) (record : StoredData) : Async unit :=
  fun w =>
    let '(failed, w') := next_fault w in
    if failed then (Rejected, w')
    else (Ok tt, mkState (<[key := record]> (storage w')) (faults w')).

(** ** The actor (src/index.ts, lines 57-92) *)

(** Lines 62-71: the counter of the record about to be written.  The
    source also assigns a local [previous_counter] (lines 63 and 68) that
    is never read; it has no counterpart here. *)
Definition nextCounter (currentData previousData : option StoredData) : float :=
  match currentData with
  | Some cd =>
      (* Calculate next Fibonacci number *)
      let prevCounter := JS.or_else (counter <$> previousData) 1%float in
      JS.plus prevCounter (counter cd)
  | None =>
      (* Initialize counters if first run *)
      2%float
  end.

Definition getCounter (locationInfo : LocationInfo) (now : Z) : Async ResponseData :=
  (* Load current and previous data from storage *)
  let_await currentData := storage_get "current" in
  let_await previousData := storage_get "previous" in
  (* Prepare new current data *)
  let newCurrentData :=
    {| counter := nextCounter currentData previousData;
       location := locationInfo;
       timestamp := now |} in
  (* Store previous data (what was current) *)
  do_await (match currentData with
            | Some cd => storage_put "previous" cd
            | None => resolve tt
            end) then
  (* Store new current data *)
  do_await storage_put "current" newCurrentData then
  resolve {| current := newCurrentData; previous := currentData |}.

(** Successive invocations on one actor, each with its own context and
    clock reading; the responses are collected in order. *)
Fixpoint invocations (calls : list (LocationInfo * Z)) (w : DurableObjectState)
  : list (result ResponseData) * DurableObjectState :=
  match calls with
  | [] => ([], w)
  | (locationInfo, now) :: rest =>
      let '(r, w1) := getCounter locationInfo now w in
      let '(rs, w2) := invocations rest w1 in
      (r :: rs, w2)
  end.

(** A freshly created actor: nothing stored, no storage failure ahead. *)
Definition fresh : DurableObjectState := mkState ∅ [].

Definition unknown : LocationInfo :=
  mkLocationInfo "Unknown" "Unknown" "Unknown" "Unknown"
                 "Unknown" "Unknown" "Unknown" "Unknown".

(** ** The counter sequence on binary64 numbers *)

Definition fib_step (p : float * float) : float * float :=
  (snd p, JS.plus (fst p) (snd p)).

Fixpoint fib_pair (n : nat) : float * float :=
  match n with
  | O => (1%float, 2%float)
  | S k => fib_step (fib_pair k)
  end.

(** [fib_pair k] is (the value used for the previous counter, the current
    counter) once [k + 1] invocations have run on a fresh actor.  At index
    1475 both components are Infinity, and the pair no longer moves. *)
Definition saturation : nat := 1475.

(** ** Running the actor without storage failures *)

(** The record an invocation writes under ['current']. *)
Definition written (w : DurableObjectState)
    (locationInfo : LocationInfo) (now : Z) : StoredData :=
  {| counter := nextCounter (storage w !! "current") (storage w !! "previous");
     location := locationInfo;
     timestamp := now |}.

(** The storage after an invocation that met no failure. *)
Definition shifted (w : DurableObjectState)
    (locationInfo : LocationInfo) (now : Z) : gmap string StoredData :=
  <["current" := written w locationInfo now]>
    (match storage w !! "current" with
     | Some cd => <["previous" := cd]> (storage w)
     | None => storage w
     end).

(** ** Specification vocabulary and sample states *)

(** The same sequence on unbounded integers, and the binary64 number
    nearest to a non-negative integer below 2^63. *)
Fixpoint fib_pairZ (n : nat) : Z * Z :=
  match n with
  | O => (1%Z, 2%Z)
  | S k => let p := fib_pairZ k in (snd p, (fst p + snd p)%Z)
  end.

Definition number_of_Z (z : Z) : float := PrimFloat.of_uint63 (Uint63.of_Z z).

(** The integer a number stands for: its exact value, mantissa times a
    power of two, when that is an integer; nothing for a fraction, an
    infinity or NaN. *)
Definition integer_value (x : float) : option Z :=
  match FloatOps.Prim2SF x with
  | SpecFloat.S754_zero _ => Some 0%Z
  | SpecFloat.S754_finite s m e =>
      let magnitude :=
        if (0 <=? e)%Z then Some (Z.pos m * 2 ^ e)%Z
        else if (Z.pos m mod 2 ^ (- e) =? 0)%Z
             then Some (Z.pos m / 2 ^ (- e))%Z
             else None in
      (fun z => if s then (- z)%Z else z) <$> magnitude
  | _ => None
  end.

(** [at_step n w]: [w] is the world of an actor after [n] successful
    invocations, as far as its counters are concerned. *)
Definition at_step (n : nat) (w : DurableObjectState) : Prop :=
  faults w = [] /\
  match n with
  | O => storage w !! "current" = None /\ storage w !! "previous" = None
  | S k =>
      counter <$> storage w !! "current" = Some (snd (fib_pair k)) /\
      counter <$> storage w !! "previous" =
        match k with
        | O => None
        | S _ => Some (fst (fib_pair k))
        end
  end.

(** The counter of the record that was current before invocation [n+1]. *)
Definition counter_before (n : nat) : option float :=
  match n with
  | O => None
  | S k => Some (snd (fib_pair k))
  end.

(** The [n]-th invocation (counted from 1) of a run returned [resp]. *)
Definition returned (rs : list (result ResponseData)) (n : nat)
    (resp : ResponseData) : Prop :=
  (1 <= n)%nat /\ rs !! (n - 1)%nat = Some (Ok resp).

Definition five_calls : list (LocationInfo * Z) :=
  [(unknown, 10%Z); (unknown, 20%Z); (unknown, 30%Z); (unknown, 40%Z);
   (unknown, 50%Z)].

(** Sample records and storage states. *)
Definition record (c : float) : StoredData := mkStoredData c unknown 0%Z.

(** A storage holding a ['previous'] record but no ['current'] one. *)
Definition orphan_previous : DurableObjectState :=
  mkState {[ "previous" := record 7%float ]} [].

(** A storage whose ['previous'] counter is 0. *)
Definition zero_previous : DurableObjectState :=
  mkState (<["previous" := record 0%float]> {[ "current" := record 5%float ]}) [].

(** The storage holds nothing outside the two slots of the actor. *)
Definition two_slots (st : gmap string StoredData) : Prop :=
  dom st ⊆ ({[ "current"; "previous" ]} : gset string).

Definition lagos : LocationInfo :=
  mkLocationInfo "Lagos" "NG" "Lagos" "Africa/Lagos"
                 "6.45407" "3.39467" "100001" "LOS".

(** The timestamp of the stored 'current' record after each invocation
    of a run. *)
Fixpoint stored_timestamps (calls : list (LocationInfo * Z))
    (w : DurableObjectState) : list (option Z) :=
  match calls with
  | [] => []
  | (locationInfo, now) :: rest =>
      let w1 := snd (getCounter locationInfo now w) in
      (timestamp <$> storage w1 !! "current") :: stored_timestamps rest w1
  end.

(** ** The Worker's fetch handler (src/index.ts, lines 95-137) *)

(** [x || d] where [x] is a string or [undefined]: the empty string is
    falsy like [undefined]. *)
Definition string_or_else (x : option string) (d : string) : string :=
  match x with
  | Some EmptyString => d
  | Some s => s
  | None => d
  end.

(** The fields of [request.cf] the handler reads; each may be missing. *)
Module Cf.

Record t := mk {
  city : option string;
  country : option string;
  region : option string;
  timezone : option string;
  latitude : option string;
  longitude : option string;
  postalCode : option string;
  colo : option string
}.

End Cf.

(** An inbound request, as far as the handler looks at it: the pathname
    of [new URL(request.url)] and the optional [request.cf] object. *)
Record Request := mkRequest {
  pathname : string;
  cf : option Cf.t
}.

(** The value [JSON.stringify] serialises: a number that is not finite
    is written [null]; members keep the order of the object literal.
    The rendering of numbers and strings as text is left out. *)
#[local] Unset Elimination Schemes.
Inductive json : Type :=
  | JNull
  | JNum (x : float)
  | JInt (z : Z)
  | JStr (s : string)
  | JObj (members : list (string * json)).
#[local] Set Elimination Schemes.

Module JSON.

Definition number (x : float) : json :=
  if JS.isFinite x then JNum x else JNull.

Definition of_location (l : LocationInfo) : json :=
  JObj [("city", JStr (city l)); ("country", JStr (country l));
        ("region", JStr (region l)); ("timezone", JStr (timezone l));
        ("latitude", JStr (latitude l)); ("longitude", JStr (longitude l));
        ("postalCode", JStr (postalCode l)); ("colo", JStr (colo l))].

Definition of_stored (d : StoredData) : json :=
  JObj [("counter", number (counter d));
        ("location", of_location (location d));
        ("timestamp", JInt (timestamp d))].

Definition stringify (data : ResponseData) : json :=
  JObj [("current", of_stored (current data));
        ("previous", match previous data with
                     | Some d => of_stored d
                     | None => JNull
                     end)].

(** Reading a serialised value back: [v.key], and [v.k1.k2...]. *)
Definition member (key : string) (v : json) : option json :=
  match v with
  | JObj members =>
      snd <$> List.find (fun m => String.eqb (fst m) key) members
  | _ => None
  end.

Fixpoint get (path : list string) (v : json) : option json :=
  match path with
  | [] => Some v
  | key :: rest =>
      match member key v with
      | Some v' => get rest v'
      | None => None
      end
  end.

End JSON.

(** A response: its body and the headers it carries. *)
Inductive Body : Type :=
  | JsonText (v : json)
  | Text (s : string).

Record Response := mkResponse {
  body : Body;
  headers : list (string * string)
}.

(** Modelled from the spec: the platform's namespace binding (section 9):
    a map from instance name to the state of that actor, an instance
    being created with empty storage on first access. *)
Record Env := mkEnv {
  MY_DURABLE_OBJECT : gmap string DurableObjectState
}.

Definition getByName (env : Env) (name : string) : DurableObjectState :=
  default fresh (MY_DURABLE_OBJECT env !! name).

(** [await stub.getCounter(locationInfo)] on the instance [name]. *)
Definition stub_getCounter (name : string) (locationInfo : LocationInfo)
    (now : Z) (env : Env) : result ResponseData * Env :=
  let '(r, w') := getCounter locationInfo now (getByName env name) in
  (r, mkEnv (<[name := w']> (MY_DURABLE_OBJECT env))).

(** Lines 108-118: extract location information from the [cf] object. *)
Definition locationInfoOf (cf : option Cf.t) : LocationInfo :=
  {| city := string_or_else (cf ≫= Cf.city) "Unknown";
     country := string_or_else (cf ≫= Cf.country) "Unknown";
     region := string_or_else (cf ≫= Cf.region) "Unknown";
     timezone := string_or_else (cf ≫= Cf.timezone) "Unknown";
     latitude := string_or_else (cf ≫= Cf.latitude) "Unknown";
     longitude := string_or_else (cf ≫= Cf.longitude) "Unknown";
     postalCode := string_or_else (cf ≫= Cf.postalCode) "Unknown";
     colo := string_or_else (cf ≫= Cf.colo) "Unknown" |}.

(** Header names are compared without regard to case. *)
Definition lower_ascii (c : Ascii.ascii) : Ascii.ascii :=
  let n := Ascii.nat_of_ascii c in
  if (65 <=? n)%nat && (n <=? 90)%nat then Ascii.ascii_of_nat (n + 32)
  else c.

Fixpoint lower (s : string) : string :=
  match s with
  | EmptyString => EmptyString
  | String c rest => String (lower_ascii c) (lower rest)
  end.

(** [new Response(body, { headers })] with a string body (Fetch
    standard): the response carries the headers given, and, when none of
    them is a Content-Type, the default one of a string body. *)
Definition new_Response (body : Body) (init : list (string * string))
  : Response :=
  {| body := body;
     headers :=
       if existsb (fun h => String.eqb (lower (fst h)) "content-type") init
       then init
       else init ++ [("content-type", "text/plain;charset=UTF-8")] |}.

Definition json_response (data : ResponseData) : Response :=
  new_Response (JsonText (JSON.stringify data))
               [("Content-Type", "application/json")].

Definition fetch (request : Request) (now : Z) (env : Env)
  : result Response * Env :=
  let locationInfo := locationInfoOf (cf request) in
  (* the instance named "foo" *)
  let stub := "foo" in
  (* Handle /message endpoint to return counter value *)
  if String.eqb (pathname request) "/message" then
    match stub_getCounter stub locationInfo now env with
    | (Ok data, env') => (Ok (json_response data), env')
    | (Rejected, env') => (Rejected, env')
    end
  else
    (Ok (new_Response (Text "Durable Object is running") []), env).

(** Successive requests to the Worker, each with the clock reading of
    the invocation it may trigger. *)
Fixpoint requests (reqs : list (Request * Z)) (env : Env)
  : list (result Response) * Env :=
  match reqs with
  | [] => ([], env)
  | (request, now) :: rest =>
      let '(r, env1) := fetch request now env in
      let '(rs, env2) := requests rest env1 in
      (r :: rs, env2)
  end.

(** The invocation a request to [/message] triggers. *)
Definition call_of (p : Request * Z) : LocationInfo * Z :=
  (locationInfoOf (cf (fst p)), snd p).

Definition is_message (p : Request * Z) : bool :=
  String.eqb (pathname (fst p)) "/message".

(** The number of storage calls of an invocation: two reads, the write
    of 'previous' when a 'current' record exists, the write of
    'current'. *)
Definition storage_calls (w : DurableObjectState) : nat :=
  match storage w !! "current" with
  | Some _ => 4
  | None => 3
  end.

(** Sample requests. *)
Definition lagos_cf : Cf.t :=
  Cf.mk (Some "Lagos") (Some "NG") (Some "") None
        (Some "6.45407") (Some "3.39467") None (Some "LOS").

Definition message_request : Request := mkRequest "/message" (Some lagos_cf).

Definition other_request : Request := mkRequest "/message/" None.

(** The response the handler builds from the outcome of the actor. *)
Definition respond (r : result ResponseData) : result Response :=
  match r with
  | Ok data => Ok (json_response data)
  | Rejected => Rejected
  end.

(** The eight fields of a location, and the [cf] object that supplies
    all of them. *)
Definition fields (l : LocationInfo) : list string :=
  [city l; country l; region l; timezone l;
   latitude l; longitude l; postalCode l; colo l].

Definition cf_fields (c : Cf.t) : list (option string) :=
  [Cf.city c; Cf.country c; Cf.region c; Cf.timezone c;
   Cf.latitude c; Cf.longitude c; Cf.postalCode c; Cf.colo c].

(** What a field of the location must be, given what [cf] supplies. *)
Definition supplied_or_unknown (supplied : option string) (field : string)
  : Prop :=
  match supplied with
  | Some EmptyString => field = "Unknown"
  | Some s => field = s
  | None => field = "Unknown"
  end.

Definition cf_of_location (l : LocationInfo) : Cf.t :=
  Cf.mk (Some (city l)) (Some (country l)) (Some (region l))
        (Some (timezone l)) (Some (latitude l)) (Some (longitude l))
        (Some (postalCode l)) (Some (colo l)).

(** A storage whose only record has counter -1. *)
Definition minus_one : DurableObjectState :=
  mkState {[ "current" := record (-1)%float ]} [].

(** ** Properties of a run without storage failures *)

Lemma getCounter_ok w locationInfo now :
  faults w = [] ->
  getCounter locationInfo now w =
    (Ok {| current := written w locationInfo now;
           previous := storage w !! "current" |},
     mkState (shifted w locationInfo now) []).
Proof.
  destruct w as [st fs]. simpl. intros ->.
  unfold getCounter, await, storage_get, storage_put, resolve, shifted, written.
  simpl. destruct (st !! "current") as [cd|]; reflexivity.
Qed.

Lemma shifted_current w locationInfo now :
  shifted w locationInfo now !! "current" = Some (written w locationInfo now).
Proof. unfold shifted. apply lookup_insert_eq. Qed.

Lemma shifted_previous w locationInfo now :
  shifted w locationInfo now !! "previous" =
    match storage w !! "current" with
    | Some cd => Some cd
    | None => storage w !! "previous"
    end.
Proof.
  unfold shifted. rewrite lookup_insert_ne by done.
  destruct (storage w !! "current"); [apply lookup_insert_eq | reflexivity].
Qed.

Lemma shifted_other w locationInfo now key :
  key <> "current" -> key <> "previous" ->
  shifted w locationInfo now !! key = storage w !! key.
Proof.
  intros Hc Hp. unfold shifted. rewrite lookup_insert_ne by done.
  destruct (storage w !! "current"); [by rewrite lookup_insert_ne | reflexivity].
Qed.

(** Invocations on an actor that meets no storage failure all return. *)
Lemma invocations_ok calls : forall w,
  faults w = [] ->
  faults (snd (invocations calls w)) = [] /\
  length (fst (invocations calls w)) = length calls /\
  Forall (fun r => exists resp, r = Ok resp) (fst (invocations calls w)).
Proof.
  induction calls as [|[loc now] rest IH]; intros w Hw; simpl.
  - repeat split; [done | constructor].
  - rewrite (getCounter_ok w loc now Hw).
    destruct (IH (mkState (shifted w loc now) []) eq_refl) as (Hf & Hl & Ha).
    destruct (invocations rest _) as [rs w2]. simpl in *.
    repeat split; [done | by rewrite Hl | constructor; [eauto | done]].
Qed.

(** ** Saturation of the counter sequence *)

Lemma fib_pair_saturated k :
  (saturation <= k)%nat -> fib_pair k = (infinity, infinity).
Proof.
  induction 1 as [|k Hk IH].
  - vm_compute. reflexivity.
  - simpl. rewrite IH. reflexivity.
Qed.

(** Two functions that agree on the first 1476 pairs agree on every pair
    of the sequence: a finite check settles a property of all of them. *)
Lemma fib_pair_ext {A} (f g : float * float -> A) :
  map f (map fib_pair (seq 0 (S saturation))) =
    map g (map fib_pair (seq 0 (S saturation))) ->
  forall k, f (fib_pair k) = g (fib_pair k).
Proof.
  intros Heq k.
  assert (Hin : forall j, (j <= saturation)%nat -> f (fib_pair j) = g (fib_pair j)).
  { intros j Hj. eapply (proj1 map_ext_in_iff); [exact Heq |].
    apply in_map, in_seq. lia. }
  destruct (le_lt_dec k saturation) as [Hk|Hk].
  - by apply Hin.
  - rewrite (fib_pair_saturated k) by lia.
    rewrite <- (fib_pair_saturated saturation) by lia. by apply Hin.
Qed.

Lemma fib_pair_forall (P : float * float -> bool) :
  forallb P (map fib_pair (seq 0 (S saturation))) = true ->
  forall k, P (fib_pair k) = true.
Proof.
  intros Hall k.
  apply (fib_pair_ext P (fun _ => true)).
  apply map_ext_in. intros p Hp.
  by apply (proj1 (forallb_forall _ _) Hall).
Qed.

Lemma fib_pair_truthy k :
  JS.truthy (fst (fib_pair k)) = true /\ JS.truthy (snd (fib_pair k)) = true.
Proof.
  apply andb_prop.
  apply (fib_pair_forall (fun p => JS.truthy (fst p) && JS.truthy (snd p))).
  vm_compute. reflexivity.
Qed.

Lemma fib_pair_plus_comm k :
  JS.plus (snd (fib_pair (S k))) (snd (fib_pair k)) =
    JS.plus (snd (fib_pair k)) (snd (fib_pair (S k))).
Proof.
  simpl.
  apply (fib_pair_ext
           (fun p => JS.plus (snd (fib_step p)) (snd p))
           (fun p => JS.plus (snd p) (snd (fib_step p)))).
  vm_compute. reflexivity.
Qed.

(** Up to the 76th invocation the counters are below 2^53 and the sums
    of the source are the exact integer sums; the 77th is the first one
    to be rounded. *)
Lemma counters_exact_below_2p53 k :
  (k <= 75)%nat ->
  (snd (fib_pairZ k) < 2 ^ 53)%Z /\
  snd (fib_pair k) = number_of_Z (snd (fib_pairZ k)).
Proof.
  intros Hk.
  assert (Hb : forallb (fun j => (snd (fib_pairZ j) <? 2 ^ 53)%Z)
                 (seq 0 76) = true) by (vm_compute; reflexivity).
  assert (He : map (fun j => snd (fib_pair j)) (seq 0 76) =
               map (fun j => number_of_Z (snd (fib_pairZ j))) (seq 0 76))
    by (vm_compute; reflexivity).
  assert (Hin : In k (seq 0 76)) by (apply in_seq; lia).
  split.
  - apply Z.ltb_lt. exact (proj1 (forallb_forall _ _) Hb k Hin).
  - exact (proj1 map_ext_in_iff He k Hin).
Qed.

Lemma counter_77_is_rounded :
  snd (fib_pairZ 76) = 14472334024676221%Z /\
  snd (fib_pair 76) = 14472334024676220%float.
Proof. split; vm_compute; reflexivity. Qed.

(** ** States reachable from a fresh actor *)

Lemma at_step_fresh : at_step 0 fresh.
Proof. repeat split. Qed.

Lemma at_step_before n w :
  at_step n w -> counter <$> storage w !! "current" = counter_before n.
Proof.
  intros [_ H]. destruct n as [|k]; simpl.
  - destruct H as [-> _]. reflexivity.
  - tauto.
Qed.

Lemma at_step_written n w locationInfo now :
  at_step n w -> counter (written w locationInfo now) = snd (fib_pair n).
Proof.
  intros [_ H]. unfold written. simpl.
  destruct n as [|k].
  - destruct H as [-> _]. reflexivity.
  - destruct H as [Hc Hp].
    destruct (storage w !! "current") as [cd|]; [|discriminate].
    injection Hc as Hc. unfold nextCounter. rewrite Hp, Hc.
    destruct k as [|j]; [reflexivity|].
    unfold JS.or_else.
    destruct (fib_pair_truthy (S j)) as [-> _]. reflexivity.
Qed.

Lemma at_step_next n w locationInfo now :
  at_step n w -> at_step (S n) (mkState (shifted w locationInfo now) []).
Proof.
  intros Hn. split; [reflexivity|]. simpl. split.
  - rewrite shifted_current. simpl. f_equal.
    exact (at_step_written n w locationInfo now Hn).
  - rewrite shifted_previous.
    pose proof (at_step_before n w Hn) as Hb.
    destruct Hn as [_ H]. destruct n as [|k].
    + destruct H as [-> ->]. reflexivity.
    + destruct (storage w !! "current") as [cd|]; [|discriminate].
      simpl in Hb. injection Hb as Hb. simpl. by rewrite Hb.
Qed.

(** What a run of successful invocations from step [n] returns and
    leaves behind. *)
Lemma invocations_at_step calls : forall n w,
  at_step n w ->
  at_step (n + length calls) (snd (invocations calls w)) /\
  forall i r, fst (invocations calls w) !! i = Some r ->
    exists resp, r = Ok resp /\
      counter (current resp) = snd (fib_pair (n + i)) /\
      counter <$> previous resp = counter_before (n + i).
Proof.
  induction calls as [|[loc now] rest IH]; intros n w Hn; simpl.
  - rewrite Nat.add_0_r. split; [done|]. intros i r Hi. discriminate.
  - rewrite (getCounter_ok w loc now (proj1 Hn)).
    destruct (IH (S n) _ (at_step_next n w loc now Hn)) as [Hend Hrs].
    destruct (invocations rest _) as [rs w2]. simpl in *.
    split; [by rewrite Nat.add_succ_r|].
    intros [|i] r Hi; simpl in Hi.
    + injection Hi as <-. eexists. split; [reflexivity|]. simpl.
      rewrite Nat.add_0_r. split.
      * exact (at_step_written n w loc now Hn).
      * exact (at_step_before n w Hn).
    + rewrite Nat.add_succ_r. by apply Hrs.
Qed.

Lemma returned_fresh calls n :
  (1 <= n <= length calls)%nat ->
  exists resp, returned (fst (invocations calls fresh)) n resp /\
    counter (current resp) = snd (fib_pair (n - 1)) /\
    counter <$> previous resp = counter_before (n - 1).
Proof.
  intros Hn.
  destruct (invocations_at_step calls 0 fresh at_step_fresh) as [_ Hrs].
  destruct (invocations_ok calls fresh eq_refl) as (_ & Hlen & _).
  destruct (lookup_lt_is_Some_2 (fst (invocations calls fresh)) (n - 1))
    as [r Hr]; [lia|].
  destruct (Hrs _ _ Hr) as (resp & -> & Hc & Hp).
  exists resp. repeat split; [lia | done | done | done].
Qed.

(** ** The claims *)

Lemma integer_values_exact k :
  (k <= 75)%nat ->
  integer_value (snd (fib_pair k)) = Some (snd (fib_pairZ k)).
Proof.
  intros Hk.
  assert (He : map (fun j => integer_value (snd (fib_pair j))) (seq 0 76) =
               map (fun j => Some (snd (fib_pairZ j))) (seq 0 76))
    by (vm_compute; reflexivity).
  apply (proj1 map_ext_in_iff He k), in_seq. lia.
Qed.

Lemma fib_pairZ_sum k :
  snd (fib_pairZ (S (S k))) =
    (snd (fib_pairZ (S k)) + snd (fib_pairZ k))%Z.
Proof. simpl. lia. Qed.

(** C1, as stated, fails: on a fresh actor invocations 75 and 76 return
    5527939700884757 and 8944394323791464, whose sum 14472334024676221
    is not a binary64 number; invocation 77 returns the rounded
    14472334024676220. *)
Lemma sum_is_rounded_at_invocation_77 :
  let rs := fst (invocations (repeat (unknown, 0%Z) 77) fresh) in
  exists r r1 r2,
    returned rs 77 r /\ returned rs 76 r1 /\ returned rs 75 r2 /\
    integer_value (counter (current r)) = Some 14472334024676220%Z /\
    integer_value (counter (current r1)) = Some 8944394323791464%Z /\
    integer_value (counter (current r2)) = Some 5527939700884757%Z /\
    (14472334024676220 <> 8944394323791464 + 5527939700884757)%Z.
Proof.
  cbv zeta.
  destruct (returned_fresh (repeat (unknown, 0%Z) 77) 77)
    as (r & Hr & Hc & _); [rewrite repeat_length; lia|].
  destruct (returned_fresh (repeat (unknown, 0%Z) 77) 76)
    as (r1 & Hr1 & Hc1 & _); [rewrite repeat_length; lia|].
  destruct (returned_fresh (repeat (unknown, 0%Z) 77) 75)
    as (r2 & Hr2 & Hc2 & _); [rewrite repeat_length; lia|].
  exists r, r1, r2.
  split; [exact Hr|]. split; [exact Hr1|]. split; [exact Hr2|].
  rewrite Hc, Hc1, Hc2.
  split; [vm_compute; reflexivity|]. split; [vm_compute; reflexivity|].
  split; [vm_compute; reflexivity | lia].
Qed.

(** C1, amended. On a fresh actor, for every run of invocations and
    every n >= 3, the n-th invocation returns a current counter equal to
    the [+] of the source (the binary64 sum, rounded to nearest) of the
    current counters returned by invocations n-1 and n-2; for n <= 76 the
    three counters are integers below 2^53 and the n-th is the exact
    integer sum of the other two.  The second invocation returns current
    counter 3 with previous counter 2, and the third returns current
    counter 5 with previous counter 3. *)
Theorem fibonacci_recurrence (calls : list (LocationInfo * Z)) :
  let rs := fst (invocations calls fresh) in
  (forall n, (3 <= n <= length calls)%nat ->
     exists r r1 r2,
       returned rs n r /\ returned rs (n - 1) r1 /\ returned rs (n - 2) r2 /\
       counter (current r) =
         JS.plus (counter (current r1)) (counter (current r2)) /\
       ((n <= 76)%nat ->
          exists z z1 z2,
            integer_value (counter (current r)) = Some z /\
            integer_value (counter (current r1)) = Some z1 /\
            integer_value (counter (current r2)) = Some z2 /\
            (z = z1 + z2)%Z /\ (z < 2 ^ 53)%Z)) /\
  ((2 <= length calls)%nat ->
     exists r, returned rs 2 r /\
       counter (current r) = 3%float /\
       counter <$> previous r = Some 2%float) /\
  ((3 <= length calls)%nat ->
     exists r, returned rs 3 r /\
       counter (current r) = 5%float /\
       counter <$> previous r = Some 3%float).
Proof.
  intros rs. subst rs. split; [|split].
  - intros n Hn.
    destruct (returned_fresh calls n) as (r & Hr & Hc & _); [lia|].
    destruct (returned_fresh calls (n - 1)) as (r1 & Hr1 & Hc1 & _); [lia|].
    destruct (returned_fresh calls (n - 2)) as (r2 & Hr2 & Hc2 & _); [lia|].
    exists r, r1, r2.
    split; [exact Hr|]. split; [exact Hr1|]. split; [exact Hr2|].
    rewrite Hc, Hc1, Hc2.
    replace (n - 1 - 1)%nat with (S (n - 3)) by lia.
    replace (n - 2 - 1)%nat with (n - 3)%nat by lia.
    replace (n - 1)%nat with (S (S (n - 3))) by lia.
    split.
    + rewrite fib_pair_plus_comm. reflexivity.
    + intros H76.
      exists (snd (fib_pairZ (S (S (n - 3))))), (snd (fib_pairZ (S (n - 3)))),
             (snd (fib_pairZ (n - 3))).
      rewrite !integer_values_exact by lia.
      split; [reflexivity|]. split; [reflexivity|]. split; [reflexivity|].
      split; [apply fib_pairZ_sum|].
      apply (counters_exact_below_2p53 (S (S (n - 3)))). lia.
  - intros Hlen.
    destruct (returned_fresh calls 2) as (r & Hr & Hc & Hp); [lia|].
    exists r. split; [exact Hr|]. split; [exact Hc | exact Hp].
  - intros Hlen.
    destruct (returned_fresh calls 3) as (r & Hr & Hc & Hp); [lia|].
    exists r. split; [exact Hr|]. split; [exact Hc | exact Hp].
Qed.

Lemma fibonacci_recurrence_witness :
  let rs := fst (invocations five_calls fresh) in
  (exists r r1 r2,
     returned rs 5 r /\ returned rs 4 r1 /\ returned rs 3 r2 /\
     counter (current r) =
       JS.plus (counter (current r1)) (counter (current r2)) /\
     exists z z1 z2,
       integer_value (counter (current r)) = Some z /\
       integer_value (counter (current r1)) = Some z1 /\
       integer_value (counter (current r2)) = Some z2 /\
       (z = z1 + z2)%Z /\ (z < 2 ^ 53)%Z) /\
  (exists r, returned rs 2 r /\
     counter (current r) = 3%float /\
     counter <$> previous r = Some 2%float) /\
  (exists r, returned rs 3 r /\
     counter (current r) = 5%float /\
     counter <$> previous r = Some 3%float).
Proof.
  destruct (fibonacci_recurrence five_calls) as (H1 & H2 & H3).
  split; [|split].
  - destruct (H1 5%nat) as (r & r1 & r2 & Hr & Hr1 & Hr2 & Hsum & Hint).
    { simpl. lia. }
    exists r, r1, r2. repeat (split; [assumption|]).
    apply Hint. lia.
  - apply H2. simpl. lia.
  - apply H3. simpl. lia.
Defined.

(** C2. For every context, an invocation on a storage that holds no
    'current' record returns current counter 2 and previous null, and the
    'previous' slot is left untouched: it is not written whatever the
    outcome of the storage calls, and on success the only change to the
    storage is the new 'current' record. *)
Theorem first_invocation_seeds (w : DurableObjectState)
    (locationInfo : LocationInfo) (now : Z) :
  storage w !! "current" = None ->
  storage (snd (getCounter locationInfo now w)) !! "previous" =
    storage w !! "previous" /\
  (faults w = [] ->
     exists r w',
       getCounter locationInfo now w = (Ok r, w') /\
       counter (current r) = 2%float /\
       previous r = None /\
       storage w' = <["current" := current r]> (storage w)).
Proof.
  intros Hc. split.
  - destruct w as [st fs]. simpl in *.
    unfold getCounter, await, storage_get, storage_put, resolve, next_fault.
    destruct fs as [|[] [|[] [|[] fs]]]; simpl; rewrite ?Hc; simpl;
      rewrite ?lookup_insert_ne by done; reflexivity.
  - intros Hf. rewrite (getCounter_ok w locationInfo now Hf).
    do 2 eexists. split; [reflexivity|]. simpl.
    unfold shifted, written. rewrite Hc. repeat split.
Qed.

Lemma first_invocation_seeds_witness :
  storage (snd (getCounter unknown 1%Z orphan_previous)) !! "previous" =
    Some (record 7%float) /\
  exists r w',
    getCounter unknown 1%Z orphan_previous = (Ok r, w') /\
    counter (current r) = 2%float /\
    previous r = None /\
    storage w' = <["current" := current r]> (storage orphan_previous).
Proof.
  destruct (first_invocation_seeds orphan_previous unknown 1%Z) as [H1 H2].
  - reflexivity.
  - split; [exact H1 | apply H2; reflexivity].
Defined.

(** C3, as stated, fails: with a 'previous' record whose counter is 0 the
    source's [previousData?.counter || 1] yields 1, so the new counter is
    1 + 5 = 6, not 0 + 5. *)
Lemma zero_previous_counts_as_one :
  exists cd pd r w',
    storage zero_previous !! "current" = Some cd /\
    storage zero_previous !! "previous" = Some pd /\
    counter pd = 0%float /\
    getCounter unknown 1%Z zero_previous = (Ok r, w') /\
    counter (current r) = 6%float /\
    counter (current r) <> JS.plus (counter pd) (counter cd).
Proof.
  exists (record 5%float), (record 0%float).
  do 2 eexists. split; [reflexivity|]. split; [reflexivity|].
  split; [reflexivity|].
  split; [exact (getCounter_ok zero_previous unknown 1%Z eq_refl)|].
  split; [reflexivity|].
  intros Heq.
  apply (f_equal (fun x => JS.strict_eq x 6%float)) in Heq.
  vm_compute in Heq. discriminate.
Qed.

(** C3, amended. For every storage state in which a 'current' record is
    present, a successful invocation computes the new counter as
    p + currentData.counter, where p is previousData.counter when a
    'previous' record is present and its counter is truthy (neither 0,
    -0 nor NaN), and p is 1 when the 'previous' record is absent or its
    counter is falsy. *)
Theorem next_counter_uses_truthy_previous (w : DurableObjectState)
    (cd : StoredData) (locationInfo : LocationInfo) (now : Z) :
  faults w = [] ->
  storage w !! "current" = Some cd ->
  exists r w',
    getCounter locationInfo now w = (Ok r, w') /\
    (forall pd, storage w !! "previous" = Some pd ->
       JS.truthy (counter pd) = true ->
       counter (current r) = JS.plus (counter pd) (counter cd)) /\
    (forall pd, storage w !! "previous" = Some pd ->
       JS.truthy (counter pd) = false ->
       counter (current r) = JS.plus 1%float (counter cd)) /\
    (storage w !! "previous" = None ->
       counter (current r) = JS.plus 1%float (counter cd)).
Proof.
  intros Hf Hc. rewrite (getCounter_ok w locationInfo now Hf).
  do 2 eexists. split; [reflexivity|]. simpl. rewrite Hc. simpl.
  repeat split.
  - intros pd -> Ht. simpl. by rewrite Ht.
  - intros pd -> Ht. simpl. by rewrite Ht.
  - intros ->. reflexivity.
Qed.

Lemma next_counter_uses_truthy_previous_witness :
  exists r w',
    getCounter unknown 1%Z zero_previous = (Ok r, w') /\
    (forall pd, storage zero_previous !! "previous" = Some pd ->
       JS.truthy (counter pd) = true ->
       counter (current r) = JS.plus (counter pd) 5%float) /\
    (forall pd, storage zero_previous !! "previous" = Some pd ->
       JS.truthy (counter pd) = false ->
       counter (current r) = JS.plus 1%float 5%float) /\
    (storage zero_previous !! "previous" = None ->
       counter (current r) = JS.plus 1%float 5%float).
Proof.
  apply (next_counter_uses_truthy_previous zero_previous (record 5%float));
    reflexivity.
Defined.

Lemma two_slots_size st : two_slots st -> (size st <= 2)%nat.
Proof.
  intros Hd. rewrite <- size_dom.
  etransitivity; [apply (subseteq_size _ _ Hd)|].
  rewrite size_union by set_solver. rewrite !size_singleton. done.
Qed.

Lemma two_slots_shifted w locationInfo now :
  two_slots (storage w) -> two_slots (shifted w locationInfo now).
Proof.
  unfold two_slots, shifted. intros Hd.
  destruct (storage w !! "current"); rewrite ?dom_insert_L;
    repeat apply union_least; trivial; set_solver+.
Qed.

Lemma two_slots_reachable calls : forall w,
  faults w = [] -> two_slots (storage w) ->
  two_slots (storage (snd (invocations calls w))).
Proof.
  induction calls as [|[loc now] rest IH]; intros w Hf Hd; simpl; [done|].
  rewrite (getCounter_ok w loc now Hf).
  specialize (IH (mkState (shifted w loc now) []) eq_refl
                 (two_slots_shifted w loc now Hd)).
  by destruct (invocations rest _).
Qed.

(** C4, as stated, fails: from a storage holding a 'previous' record but
    no 'current' one, the guard [if (currentData)] skips the write of
    'previous', which then differs from the (absent) old 'current'. *)
Lemma orphan_previous_is_not_shifted :
  exists r w',
    getCounter unknown 1%Z orphan_previous = (Ok r, w') /\
    storage orphan_previous !! "current" = None /\
    storage w' !! "previous" = Some (record 7%float) /\
    storage w' !! "previous" <> storage orphan_previous !! "current".
Proof.
  do 2 eexists.
  split; [exact (getCounter_ok orphan_previous unknown 1%Z eq_refl)|].
  split; [reflexivity|]. split; [reflexivity|].
  simpl. rewrite shifted_previous. discriminate.
Qed.

(** C4, amended. For every storage state, after a successful invocation:
    when a 'current' record was present at the start, the stored
    'previous' record is that record; when none was present, the
    'previous' slot is left as it was; no key other than 'current' and
    'previous' is changed, so a storage holding only these two keys still
    holds only them, at most two records.  Every state reachable from the
    fresh actor is of that kind. *)
Theorem previous_is_old_current :
  (forall (w : DurableObjectState) (locationInfo : LocationInfo) (now : Z),
     faults w = [] ->
     exists r w',
       getCounter locationInfo now w = (Ok r, w') /\
       (forall cd, storage w !! "current" = Some cd ->
          storage w' !! "previous" = Some cd) /\
       (storage w !! "current" = None ->
          storage w' !! "previous" = storage w !! "previous") /\
       (forall key, key <> "current" -> key <> "previous" ->
          storage w' !! key = storage w !! key) /\
       (two_slots (storage w) ->
          two_slots (storage w') /\ (size (storage w') <= 2)%nat)) /\
  (forall calls : list (LocationInfo * Z),
     let w := snd (invocations calls fresh) in
     two_slots (storage w) /\ (size (storage w) <= 2)%nat).
Proof.
  split.
  - intros w loc now Hf. rewrite (getCounter_ok w loc now Hf).
    do 2 eexists. split; [reflexivity|]. simpl.
    split; [|split; [|split]].
    + intros cd Hc. by rewrite shifted_previous, Hc.
    + intros Hc. by rewrite shifted_previous, Hc.
    + intros key Hk1 Hk2. by apply shifted_other.
    + intros Hd. pose proof (two_slots_shifted w loc now Hd) as Hd'.
      split; [done | by apply two_slots_size].
  - intros calls w.
    assert (Hd : two_slots (storage w)).
    { apply two_slots_reachable; [done|]. unfold two_slots. simpl.
      rewrite dom_empty_L. set_solver. }
    split; [done | by apply two_slots_size].
Qed.

Lemma previous_is_old_current_witness :
  exists r w',
    getCounter unknown 1%Z zero_previous = (Ok r, w') /\
    storage w' !! "previous" = Some (record 5%float) /\
    two_slots (storage w') /\ (size (storage w') <= 2)%nat.
Proof.
  destruct (proj1 previous_is_old_current zero_previous unknown 1%Z eq_refl)
    as (r & w' & Hrun & Hshift & _ & _ & Hsize).
  exists r, w'. split; [exact Hrun|]. split.
  - apply Hshift. reflexivity.
  - apply Hsize. unfold two_slots, zero_previous. simpl.
    rewrite dom_insert_L, dom_singleton_L. set_solver.
Defined.

(** C5. For every storage state and every context, a successful
    invocation returns the new record (the computed counter, the supplied
    context and the clock reading, as stored under 'current') together
    with, as previous, exactly the record stored under 'current' at the
    start, or null when there was none; the returned previous does not
    depend on the storage's 'previous' slot. *)
Theorem response_previous_is_old_current (w : DurableObjectState)
    (locationInfo : LocationInfo) (now : Z) :
  faults w = [] ->
  exists r w',
    getCounter locationInfo now w = (Ok r, w') /\
    current r =
      {| counter := nextCounter (storage w !! "current") (storage w !! "previous");
         location := locationInfo;
         timestamp := now |} /\
    storage w' !! "current" = Some (current r) /\
    previous r = storage w !! "current" /\
    (forall slot : option StoredData,
       let w2 := mkState (partial_alter (fun _ => slot) "previous" (storage w)) [] in
       exists r2 w2',
         getCounter locationInfo now w2 = (Ok r2, w2') /\
         previous r2 = previous r).
Proof.
  intros Hf. rewrite (getCounter_ok w locationInfo now Hf).
  do 2 eexists. split; [reflexivity|]. simpl.
  split; [reflexivity|]. split; [apply shifted_current|].
  split; [reflexivity|].
  intros slot. rewrite getCounter_ok by reflexivity.
  do 2 eexists. split; [reflexivity|]. simpl.
  by rewrite lookup_partial_alter_ne.
Qed.

Lemma response_previous_is_old_current_witness :
  exists r w',
    getCounter unknown 1%Z zero_previous = (Ok r, w') /\
    previous r = Some (record 5%float).
Proof.
  destruct (response_previous_is_old_current zero_previous unknown 1%Z eq_refl)
    as (r & w' & Hrun & _ & _ & Hprev & _).
  exists r, w'. split; [exact Hrun | exact Hprev].
Defined.

(** C6. For every context and every storage state, the context passed to
    a successful invocation is stored as it is in the new 'current'
    record and returned as current.location by that invocation, and is
    returned as previous.location by the next invocation on the same
    actor. *)
Theorem context_is_passed_through (w : DurableObjectState)
    (locationInfo : LocationInfo) (now : Z)
    (locationInfo' : LocationInfo) (now' : Z) :
  faults w = [] ->
  exists r w1 r' w2,
    getCounter locationInfo now w = (Ok r, w1) /\
    location (current r) = locationInfo /\
    location <$> storage w1 !! "current" = Some locationInfo /\
    getCounter locationInfo' now' w1 = (Ok r', w2) /\
    location <$> previous r' = Some locationInfo /\
    location (current r') = locationInfo'.
Proof.
  intros Hf.
  eexists _, (mkState (shifted w locationInfo now) []), _, _.
  rewrite (getCounter_ok w locationInfo now Hf).
  rewrite getCounter_ok by reflexivity.
  split; [reflexivity|]. simpl.
  rewrite shifted_current. repeat split.
Qed.

Lemma context_is_passed_through_witness :
  exists r w1 r' w2,
    getCounter lagos 1%Z fresh = (Ok r, w1) /\
    location (current r) = lagos /\
    location <$> storage w1 !! "current" = Some lagos /\
    getCounter unknown 2%Z w1 = (Ok r', w2) /\
    location <$> previous r' = Some lagos /\
    location (current r') = unknown.
Proof.
  apply (context_is_passed_through fresh lagos 1%Z unknown 2%Z).
  reflexivity.
Defined.

(** ** Growth of the counter sequence *)

Lemma fib_pair_grows k :
  JS.isFinite (snd (fib_pair k)) = true ->
  JS.lt (snd (fib_pair k)) (snd (fib_pair (S k))) = true /\
  JS.strict_eq (snd (fib_pair k)) (snd (fib_pair (S k))) = false.
Proof.
  intros Hfin. simpl.
  pose proof (fib_pair_forall
    (fun p => implb (JS.isFinite (snd p))
                (JS.lt (snd p) (snd (fib_step p)) &&
                 negb (JS.strict_eq (snd p) (snd (fib_step p)))))) as H.
  specialize (H ltac:(vm_compute; reflexivity) k). cbv beta in H.
  rewrite Hfin in H. simpl in H.
  apply andb_prop in H. destruct H as [H1 H2].
  split; [exact H1 | by apply negb_true_iff].
Qed.

Lemma fib_pair_bounds k :
  JS.le 2%float (snd (fib_pair k)) = true /\
  JS.le 2%float (fst (fib_pair (S k))) = true /\
  JS.le (fst (fib_pair k)) (snd (fib_pair k)) = true /\
  (JS.isFinite (fst (fib_pair k)) = true ->
   JS.lt (fst (fib_pair k)) (snd (fib_pair k)) = true).
Proof.
  pose proof (fib_pair_forall
    (fun p => JS.le 2%float (snd p) && JS.le (fst p) (snd p) &&
              implb (JS.isFinite (fst p)) (JS.lt (fst p) (snd p)))) as H.
  specialize (H ltac:(vm_compute; reflexivity) k). cbv beta in H.
  apply andb_prop in H. destruct H as [H H3].
  apply andb_prop in H. destruct H as [H1 H2].
  split; [exact H1|]. split; [exact H1|]. split; [exact H2|].
  intros Hfin. by rewrite Hfin in H3.
Qed.

Lemma fib_pair_finite k :
  (k < 1474)%nat -> JS.isFinite (snd (fib_pair k)) = true.
Proof.
  intros Hk.
  assert (Hall : forallb (fun j => JS.isFinite (snd (fib_pair j)))
                   (seq 0 1474) = true) by (vm_compute; reflexivity).
  apply (proj1 (forallb_forall _ _) Hall). apply in_seq. lia.
Qed.

(** The counters held by a storage reached in [n] invocations. *)
Lemma at_step_current n w cd :
  at_step n w -> storage w !! "current" = Some cd ->
  exists k, n = S k /\ counter cd = snd (fib_pair k).
Proof.
  intros [_ H] Hc. destruct n as [|k].
  - destruct H as [H _]. congruence.
  - exists k. split; [done|]. destruct H as [H _].
    rewrite Hc in H. by injection H.
Qed.

Lemma at_step_previous n w pd :
  at_step n w -> storage w !! "previous" = Some pd ->
  exists k, n = S (S k) /\ counter pd = fst (fib_pair (S k)).
Proof.
  intros [_ H] Hp. destruct n as [|[|k]].
  - destruct H as [_ H]. congruence.
  - destruct H as [_ H]. rewrite Hp in H. discriminate.
  - exists k. split; [done|]. destruct H as [_ H].
    rewrite Hp in H. by injection H.
Qed.

Lemma at_step_stored k w :
  at_step (S k) w ->
  exists cd, storage w !! "current" = Some cd /\
    counter cd = snd (fib_pair k).
Proof.
  intros [_ [Hc _]].
  destruct (storage w !! "current") as [cd|]; [|discriminate].
  exists cd. split; [done|]. by injection Hc.
Qed.

Lemma at_step_stored_previous k w :
  at_step (S (S k)) w ->
  exists pd, storage w !! "previous" = Some pd /\
    counter pd = fst (fib_pair (S k)).
Proof.
  intros [_ [_ Hp]].
  destruct (storage w !! "previous") as [pd|]; [|discriminate].
  exists pd. split; [done|]. by injection Hp.
Qed.

Lemma at_step_reachable calls :
  at_step (length calls) (snd (invocations calls fresh)).
Proof.
  exact (proj1 (invocations_at_step calls 0 fresh at_step_fresh)).
Qed.

(** The run itself, evaluated: on a fresh actor the 1474th invocation
    returns the last finite counter, the 1475th and 1476th return
    Infinity. *)
Example overflow_at_invocation_1475 :
  map (fun r => match r with
                | Some (Ok resp) => Some (counter (current resp))
                | _ => None
                end)
      (let rs := fst (invocations (repeat (unknown, 0%Z) 1476) fresh) in
       [rs !! 1473%nat; rs !! 1474%nat; rs !! 1475%nat])
  = [Some 0x1.743e2dd8a5fe4p+1023%float; Some infinity; Some infinity].
Proof. vm_compute. reflexivity. Qed.

(** C7, as stated, fails: after 1474 invocations the stored counters are
    so large that their sum overflows the binary64 range; the next two
    invocations, with identical context, both return Infinity. *)
Lemma saturated_invocations_return_equal_values :
  let w := snd (invocations (repeat (unknown, 0%Z) 1474) fresh) in
  exists r1 w1 r2 w2,
    getCounter unknown 0%Z w = (Ok r1, w1) /\
    getCounter unknown 0%Z w1 = (Ok r2, w2) /\
    counter (current r1) = infinity /\
    counter (current r2) = infinity /\
    JS.strict_eq (counter (current r1)) (counter (current r2)) = true.
Proof.
  pose proof (at_step_reachable (repeat (unknown, 0%Z) 1474)) as Hw.
  rewrite repeat_length in Hw.
  generalize dependent (snd (invocations (repeat (unknown, 0%Z) 1474) fresh)).
  intros w Hw. cbv zeta.
  pose proof (at_step_next _ _ unknown 0%Z Hw) as Hw1.
  pose proof (at_step_written _ _ unknown 0%Z Hw) as E1.
  pose proof (at_step_written _ _ unknown 0%Z Hw1) as E2.
  assert (S1 : snd (fib_pair 1474) = infinity) by (vm_compute; reflexivity).
  assert (S2 : snd (fib_pair 1475) = infinity) by (vm_compute; reflexivity).
  rewrite S1 in E1. rewrite S2 in E2.
  eexists _, (mkState (shifted w unknown 0%Z) []), _, _.
  rewrite (getCounter_ok w unknown 0%Z (proj1 Hw)).
  rewrite getCounter_ok by reflexivity.
  split; [reflexivity|]. split; [reflexivity|]. cbn [current].
  rewrite E1, E2. repeat split.
Qed.

(** C7, amended. The operation is not idempotent as long as the counter
    has not overflowed: in every state reachable from a fresh actor, two
    successive invocations with identical context both return, and when
    the first returned current counter is finite the second one is
    strictly larger, hence different.  The first is finite whenever fewer
    than 1474 invocations came before. *)
Theorem not_idempotent_while_finite (calls : list (LocationInfo * Z))
    (locationInfo : LocationInfo) (now1 now2 : Z) :
  let w := snd (invocations calls fresh) in
  exists r1 w1 r2 w2,
    getCounter locationInfo now1 w = (Ok r1, w1) /\
    getCounter locationInfo now2 w1 = (Ok r2, w2) /\
    (JS.isFinite (counter (current r1)) = true ->
       JS.lt (counter (current r1)) (counter (current r2)) = true /\
       JS.strict_eq (counter (current r1)) (counter (current r2)) = false) /\
    ((length calls < 1474)%nat ->
       JS.isFinite (counter (current r1)) = true).
Proof.
  intros w. pose proof (at_step_reachable calls) as Hw. fold w in Hw.
  eexists _, (mkState (shifted w locationInfo now1) []), _, _.
  rewrite (getCounter_ok w locationInfo now1 (proj1 Hw)).
  rewrite getCounter_ok by reflexivity.
  split; [reflexivity|]. split; [reflexivity|].
  pose proof (at_step_next _ _ locationInfo now1 Hw) as Hw1.
  pose proof (at_step_written _ _ locationInfo now1 Hw) as E1.
  pose proof (at_step_written _ _ locationInfo now2 Hw1) as E2.
  cbn [current]. rewrite E1, E2. split.
  - apply fib_pair_grows.
  - apply fib_pair_finite.
Qed.

Lemma not_idempotent_while_finite_witness :
  exists r1 w1 r2 w2,
    getCounter lagos 60%Z (snd (invocations five_calls fresh)) = (Ok r1, w1) /\
    getCounter lagos 70%Z w1 = (Ok r2, w2) /\
    JS.lt (counter (current r1)) (counter (current r2)) = true /\
    JS.strict_eq (counter (current r1)) (counter (current r2)) = false.
Proof.
  destruct (not_idempotent_while_finite five_calls lagos 60%Z 70%Z)
    as (r1 & w1 & r2 & w2 & H1 & H2 & Hdiff & Hfin).
  exists r1, w1, r2, w2. split; [exact H1|]. split; [exact H2|].
  apply Hdiff, Hfin. simpl. lia.
Defined.

(** C8. When both reads and the put of 'previous' succeed but the put of
    'current' fails, the invocation fails, and the storage is left with
    the updated 'previous' record (the old current) and the stale
    'current' record: nothing undoes the write of 'previous'. *)
Theorem failed_current_put_keeps_previous_write
    (st : gmap string StoredData) (cd : StoredData)
    (locationInfo : LocationInfo) (now : Z) (later : list bool) :
  st !! "current" = Some cd ->
  let w := mkState st (false :: false :: false :: true :: later) in
  getCounter locationInfo now w =
    (Rejected, mkState (<["previous" := cd]> st) later) /\
  storage (snd (getCounter locationInfo now w)) !! "previous" = Some cd /\
  storage (snd (getCounter locationInfo now w)) !! "current" = st !! "current".
Proof.
  intros Hc w.
  assert (Hrun : getCounter locationInfo now w =
                   (Rejected, mkState (<["previous" := cd]> st) later)).
  { subst w.
    unfold getCounter, await, storage_get, storage_put, resolve, next_fault.
    simpl. rewrite Hc. reflexivity. }
  rewrite Hrun. simpl. split; [reflexivity|]. split.
  - apply lookup_insert_eq.
  - by rewrite lookup_insert_ne.
Qed.

Lemma failed_current_put_keeps_previous_write_witness :
  let w := mkState (storage zero_previous) [false; false; false; true] in
  getCounter lagos 9%Z w =
    (Rejected,
     mkState (<["previous" := record 5%float]> (storage zero_previous)) []) /\
  storage (snd (getCounter lagos 9%Z w)) !! "previous" = Some (record 5%float) /\
  storage (snd (getCounter lagos 9%Z w)) !! "current" = Some (record 5%float).
Proof.
  apply (failed_current_put_keeps_previous_write
           (storage zero_previous) (record 5%float) lagos 9%Z []).
  reflexivity.
Defined.

Lemma stored_timestamps_ok calls : forall w,
  faults w = [] ->
  stored_timestamps calls w = map (fun c => Some (snd c)) calls.
Proof.
  induction calls as [|[loc now] rest IH]; intros w Hf; simpl; [done|].
  rewrite (getCounter_ok w loc now Hf). simpl.
  rewrite shifted_current. simpl. f_equal. by apply IH.
Qed.

(** C9. Across successive successful invocations on one actor, if no
    clock reading is earlier than the one of the preceding invocation,
    then the timestamps of the successively stored 'current' records
    never decrease: each invocation stores its own clock reading. *)
Theorem timestamps_never_decrease (calls : list (LocationInfo * Z))
    (w : DurableObjectState) :
  faults w = [] ->
  Sorted Z.le (map snd calls) ->
  exists ts,
    stored_timestamps calls w = map Some ts /\
    length ts = length calls /\
    Sorted Z.le ts.
Proof.
  intros Hf Hs. exists (map snd calls).
  rewrite (stored_timestamps_ok calls w Hf), map_map, length_map.
  repeat split; done.
Qed.

Lemma timestamps_never_decrease_witness :
  exists ts,
    stored_timestamps five_calls fresh = map Some ts /\
    length ts = 5%nat /\
    Sorted Z.le ts.
Proof.
  apply (timestamps_never_decrease five_calls fresh); [reflexivity|].
  simpl. repeat constructor; done.
Defined.

(** C10, as stated, fails: after 1476 invocations both stored counters
    are Infinity, so 'current' is not strictly greater than 'previous',
    and the invocations that follow return the same value again. *)
Lemma saturated_counters_are_equal :
  let w := snd (invocations (repeat (unknown, 0%Z) 1476) fresh) in
  exists cd pd,
    storage w !! "current" = Some cd /\
    storage w !! "previous" = Some pd /\
    counter cd = infinity /\
    counter pd = infinity /\
    JS.lt (counter pd) (counter cd) = false.
Proof.
  pose proof (at_step_reachable (repeat (unknown, 0%Z) 1476)) as Hw.
  rewrite repeat_length in Hw.
  generalize dependent (snd (invocations (repeat (unknown, 0%Z) 1476) fresh)).
  intros w Hw. cbv zeta.
  destruct (at_step_stored 1475 w Hw) as (cd & Hc & Ec).
  destruct (at_step_stored_previous 1474 w Hw) as (pd & Hp & Ep).
  assert (S1 : fib_pair 1475 = (infinity, infinity)) by (vm_compute; reflexivity).
  rewrite S1 in Ec, Ep.
  exists cd, pd. rewrite Ec, Ep. repeat split; done.
Qed.

(** C10, amended. In every storage state reachable from the fresh actor
    by successful invocations, the stored 'current' counter is at least
    2, the stored 'previous' counter (when present) is at least 2, and
    'current' is at least 'previous', strictly greater whenever
    'previous' is finite; the stored counters are truthy (never 0, -0 or
    NaN), so the fallback [previousData?.counter || 1] yields 1 exactly
    when the 'previous' record is absent; and the returned current
    counters never decrease from one invocation to the next, strictly
    increasing as long as they are finite. *)
Theorem reachable_counters_invariant (calls : list (LocationInfo * Z)) :
  let rs := fst (invocations calls fresh) in
  let w := snd (invocations calls fresh) in
  (forall cd, storage w !! "current" = Some cd ->
     JS.le 2%float (counter cd) = true /\ JS.truthy (counter cd) = true) /\
  (forall pd, storage w !! "previous" = Some pd ->
     JS.le 2%float (counter pd) = true /\ JS.truthy (counter pd) = true) /\
  (forall cd pd,
     storage w !! "current" = Some cd -> storage w !! "previous" = Some pd ->
     JS.le (counter pd) (counter cd) = true /\
     (JS.isFinite (counter pd) = true ->
      JS.lt (counter pd) (counter cd) = true)) /\
  JS.or_else (counter <$> storage w !! "previous") 1%float =
    match storage w !! "previous" with
    | Some pd => counter pd
    | None => 1%float
    end /\
  (forall i a b, rs !! i = Some (Ok a) -> rs !! S i = Some (Ok b) ->
     JS.le (counter (current a)) (counter (current b)) = true /\
     (JS.isFinite (counter (current a)) = true ->
      JS.lt (counter (current a)) (counter (current b)) = true)).
Proof.
  intros rs w.
  pose proof (at_step_reachable calls) as Hw. fold w in Hw.
  assert (Hprev : forall pd, storage w !! "previous" = Some pd ->
            JS.le 2%float (counter pd) = true /\
            JS.truthy (counter pd) = true).
  { intros pd Hp.
    destruct (at_step_previous _ _ _ Hw Hp) as (k & _ & ->).
    split.
    - apply (fib_pair_bounds k).
    - apply (fib_pair_truthy (S k)). }
  split; [|split; [exact Hprev|split; [|split]]].
  - intros cd Hc.
    destruct (at_step_current _ _ _ Hw Hc) as (k & _ & ->).
    split.
    + apply (fib_pair_bounds k).
    + apply (fib_pair_truthy k).
  - intros cd pd Hc Hp.
    destruct (at_step_current _ _ _ Hw Hc) as (k & Hk & ->).
    destruct (at_step_previous _ _ _ Hw Hp) as (j & Hj & ->).
    assert (k = S j) as -> by lia.
    split; apply (fib_pair_bounds (S j)).
  - destruct (storage w !! "previous") as [pd|] eqn:Hp; [|reflexivity].
    simpl. by destruct (Hprev pd eq_refl) as [_ ->].
  - intros i a b Ha Hb.
    destruct (invocations_at_step calls 0 fresh at_step_fresh) as [_ Hrs].
    fold rs in Hrs.
    destruct (Hrs _ _ Ha) as (a' & Ea & Hca & _).
    destruct (Hrs _ _ Hb) as (b' & Eb & Hcb & _).
    injection Ea as <-. injection Eb as <-.
    rewrite Hca, Hcb. simpl.
    split.
    + apply (fib_pair_bounds (S i)).
    + apply (fib_pair_bounds (S i)).
Qed.

Lemma reachable_counters_invariant_witness :
  exists cd pd,
    storage (snd (invocations five_calls fresh)) !! "current" = Some cd /\
    storage (snd (invocations five_calls fresh)) !! "previous" = Some pd /\
    counter cd = 13%float /\
    counter pd = 8%float /\
    JS.le 2%float (counter pd) = true /\
    JS.lt (counter pd) (counter cd) = true.
Proof.
  destruct (reachable_counters_invariant five_calls) as (_ & Hp & Hcp & _).
  eexists _, _.
  split; [vm_compute; reflexivity|]. split; [vm_compute; reflexivity|].
  split; [reflexivity|]. split; [reflexivity|]. split.
  - eapply Hp. vm_compute. reflexivity.
  - eapply Hcp; vm_compute; reflexivity.
Defined.

(** ** Further properties of the actor *)

(** Case analysis on the outcomes of the four storage calls an
    invocation can make, and on the presence of a 'current' record. *)
Ltac storage_cases w cd Hc :=
  let st := fresh "st" in
  let fs := fresh "fs" in
  destruct w as [st fs];
  destruct fs as [|[] [|[] [|[] [|[] fs]]]];
  unfold getCounter, await, storage_get, storage_put, resolve, next_fault,
    storage_calls, shifted, written;
  simpl in *;
  destruct (st !! "current") as [cd|] eqn:Hc;
  simpl in *.

(** X1. An invocation makes four storage calls when a 'current' record
    is stored and three otherwise.  It returns exactly when none of them
    rejects, and then its response and the storage it leaves are those of
    a run without failures, whatever else the schedule holds. *)
Theorem invocation_succeeds_iff_no_call_rejects (w : DurableObjectState)
    (locationInfo : LocationInfo) (now : Z) :
  let n := storage_calls w in
  (forallb negb (take n (faults w)) = true ->
     getCounter locationInfo now w =
       (Ok {| current := written w locationInfo now;
              previous := storage w !! "current" |},
        mkState (shifted w locationInfo now) (drop n (faults w)))) /\
  (forallb negb (take n (faults w)) = false ->
     fst (getCounter locationInfo now w) = Rejected).
Proof.
  storage_cases w cd Hc; split; intros H; try discriminate H; reflexivity.
Qed.

Lemma invocation_succeeds_iff_no_call_rejects_witness :
  getCounter lagos 9%Z
    (mkState (storage zero_previous) [false; false; false; false; true]) =
    (Ok {| current := mkStoredData 6%float lagos 9%Z;
           previous := Some (record 5%float) |},
     mkState (shifted zero_previous lagos 9%Z) [true]) /\
  fst (getCounter lagos 9%Z
         (mkState (storage zero_previous) [false; true])) = Rejected.
Proof.
  split.
  - apply (invocation_succeeds_iff_no_call_rejects
             (mkState (storage zero_previous)
                      [false; false; false; false; true]) lagos 9%Z).
    reflexivity.
  - apply (invocation_succeeds_iff_no_call_rejects
             (mkState (storage zero_previous) [false; true]) lagos 9%Z).
    reflexivity.
Defined.

(** X2. A failed invocation never touches the 'current' record and never
    stores a new record: either the storage is unchanged, or its only
    change is that 'previous' now holds the old 'current' record. *)
Theorem failed_invocation_keeps_current (w : DurableObjectState)
    (locationInfo : LocationInfo) (now : Z) :
  fst (getCounter locationInfo now w) = Rejected ->
  let st' := storage (snd (getCounter locationInfo now w)) in
  st' !! "current" = storage w !! "current" /\
  (st' = storage w \/
   exists cd, storage w !! "current" = Some cd /\
              st' = <["previous" := cd]> (storage w)).
Proof.
  storage_cases w cd Hc; intros H; try discriminate H;
    rewrite ?lookup_insert_ne by done; (split; [done|]);
    solve [by left | right; by exists cd].
Qed.

Lemma failed_invocation_keeps_current_witness :
  let w := mkState (storage zero_previous) [false; false; false; true] in
  storage (snd (getCounter lagos 9%Z w)) !! "current" = Some (record 5%float).
Proof.
  apply (failed_invocation_keeps_current
           (mkState (storage zero_previous) [false; false; false; true])
           lagos 9%Z).
  reflexivity.
Defined.

(** X3. When one of the first three storage calls rejects (a read, or
    the first write), the invocation fails and the storage is exactly as
    it was. *)
Theorem early_rejection_changes_nothing (w : DurableObjectState)
    (locationInfo : LocationInfo) (now : Z) (i : nat) :
  (i < 3)%nat -> faults w !! i = Some true ->
  (forall j, (j < i)%nat -> faults w !! j = Some false) ->
  getCounter locationInfo now w =
    (Rejected, mkState (storage w) (drop (S i) (faults w))).
Proof.
  intros Hi Hf Hbefore.
  destruct i as [|[|[|i]]]; [| | |lia].
  - storage_cases w cd Hc; try discriminate Hf; reflexivity.
  - pose proof (Hbefore 0%nat ltac:(lia)) as H0.
    storage_cases w cd Hc; try discriminate Hf; try discriminate H0;
      reflexivity.
  - pose proof (Hbefore 0%nat ltac:(lia)) as H0.
    pose proof (Hbefore 1%nat ltac:(lia)) as H1.
    storage_cases w cd Hc; try discriminate Hf; try discriminate H0;
      try discriminate H1; reflexivity.
Qed.

Lemma early_rejection_changes_nothing_witness :
  getCounter lagos 9%Z (mkState (storage zero_previous) [false; false; true; false]) =
    (Rejected, mkState (storage zero_previous) [false]).
Proof.
  apply (early_rejection_changes_nothing
           (mkState (storage zero_previous) [false; false; true; false])
           lagos 9%Z 2).
  - lia.
  - reflexivity.
  - intros [|[|j]] Hj; [reflexivity | reflexivity | lia].
Defined.

(** X4. Whatever the storage calls do, an invocation never removes a
    key and never changes a record stored under a key other than
    'current' and 'previous'. *)
Theorem invocation_never_deletes (w : DurableObjectState)
    (locationInfo : LocationInfo) (now : Z) :
  let st' := storage (snd (getCounter locationInfo now w)) in
  dom (storage w) ⊆ dom st' /\
  forall key, key <> "current" -> key <> "previous" ->
    st' !! key = storage w !! key.
Proof.
  storage_cases w cd Hc; (split; [|intros key Hk1 Hk2]);
    rewrite ?dom_insert_L, ?lookup_insert_ne by done;
    first [done | set_solver+].
Qed.

(** X5. The inconsistency left by a failed write of 'current' breaks
    the recurrence on retry: when the write of 'current' is the only
    call that fails, the next invocation adds the stale counter to
    itself (provided it is truthy) instead of adding the older one, and
    returns the stale record as previous once more. *)
Theorem retry_after_failed_write_doubles
    (st : gmap string StoredData) (cd : StoredData)
    (locationInfo locationInfo' : LocationInfo) (now now' : Z) :
  st !! "current" = Some cd ->
  JS.truthy (counter cd) = true ->
  let w := mkState st [false; false; false; true] in
  exists w1 r w2,
    getCounter locationInfo now w = (Rejected, w1) /\
    getCounter locationInfo' now' w1 = (Ok r, w2) /\
    counter (current r) = JS.plus (counter cd) (counter cd) /\
    previous r = Some cd /\
    storage w2 !! "previous" = Some cd.
Proof.
  intros Hc Ht w.
  assert (Hrun : getCounter locationInfo now w =
                   (Rejected, mkState (<["previous" := cd]> st) [])).
  { subst w.
    unfold getCounter, await, storage_get, storage_put, resolve, next_fault.
    simpl. rewrite Hc. reflexivity. }
  rewrite Hrun.
  eexists _, _, _. split; [reflexivity|].
  rewrite getCounter_ok by reflexivity.
  split; [reflexivity|]. cbn [current previous storage].
  unfold written, shifted. cbn [storage counter].
  rewrite lookup_insert_eq, lookup_insert_ne, Hc by done.
  cbn. rewrite Ht. repeat split.
  rewrite lookup_insert_ne by done. apply lookup_insert_eq.
Qed.

Lemma retry_after_failed_write_doubles_witness :
  let w := mkState (storage zero_previous) [false; false; false; true] in
  exists w1 r w2,
    getCounter lagos 9%Z w = (Rejected, w1) /\
    getCounter lagos 10%Z w1 = (Ok r, w2) /\
    counter (current r) = 10%float /\
    previous r = Some (record 5%float) /\
    storage w2 !! "previous" = Some (record 5%float).
Proof.
  apply (retry_after_failed_write_doubles (storage zero_previous)
           (record 5%float) lagos lagos 9%Z 10%Z); reflexivity.
Defined.

(** X6. The context and the clock reading are never interpreted: two
    invocations on the same state that differ only in context and clock
    succeed or fail alike, return the same counter and the same previous
    record, and leave the same counters in the storage. *)
Theorem context_and_clock_do_not_influence_counters (w : DurableObjectState)
    (locationInfo locationInfo' : LocationInfo) (now now' : Z) :
  let run := getCounter locationInfo now w in
  let run' := getCounter locationInfo' now' w in
  match fst run, fst run' with
  | Ok r, Ok r' =>
      counter (current r) = counter (current r') /\ previous r = previous r'
  | Rejected, Rejected => True
  | _, _ => False
  end /\
  counter <$> storage (snd run) = counter <$> storage (snd run') /\
  faults (snd run) = faults (snd run').
Proof.
  storage_cases w cd Hc; repeat split; rewrite ?fmap_insert; reflexivity.
Qed.

(** ** Runs from an arbitrary state *)

Lemma invocations_cons_ok locationInfo now rest w :
  faults w = [] ->
  invocations ((locationInfo, now) :: rest) w =
    (Ok {| current := written w locationInfo now;
           previous := storage w !! "current" |}
       :: fst (invocations rest (mkState (shifted w locationInfo now) [])),
     snd (invocations rest (mkState (shifted w locationInfo now) []))).
Proof.
  intros Hf. simpl. rewrite (getCounter_ok w locationInfo now Hf).
  by destruct (invocations rest _).
Qed.

(** X7. In a run of invocations without storage failure, from any
    state, every response carries as previous the whole record that the
    preceding response carried as current. *)
Theorem responses_are_chained (calls : list (LocationInfo * Z))
    (w : DurableObjectState) (i : nat) (a b : result ResponseData) :
  faults w = [] ->
  fst (invocations calls w) !! i = Some a ->
  fst (invocations calls w) !! S i = Some b ->
  exists ra rb, a = Ok ra /\ b = Ok rb /\ previous rb = Some (current ra).
Proof.
  revert calls w. induction i as [|i IH]; intros calls w Hf Ha Hb.
  - destruct calls as [|[loc1 now1] rest]; [discriminate Ha|].
    rewrite invocations_cons_ok in Ha, Hb by done.
    destruct rest as [|[loc2 now2] rest]; [discriminate Hb|].
    rewrite invocations_cons_ok in Hb by done.
    cbn [fst lookup list_lookup] in Ha, Hb.
    injection Ha as <-. injection Hb as <-.
    eexists _, _. split; [reflexivity|]. split; [reflexivity|].
    cbn [previous current storage]. apply shifted_current.
  - destruct calls as [|[loc1 now1] rest]; [discriminate Ha|].
    rewrite invocations_cons_ok in Ha, Hb by done.
    cbn [fst] in Ha, Hb.
    exact (IH rest (mkState (shifted w loc1 now1) []) eq_refl Ha Hb).
Qed.

Lemma responses_are_chained_witness :
  exists ra rb,
    Ok (mkResponseData (mkStoredData 6%float lagos 9%Z) (Some (record 5%float)))
      = Ok ra /\
    Ok (mkResponseData (mkStoredData 11%float unknown 10%Z)
          (Some (mkStoredData 6%float lagos 9%Z))) = Ok rb /\
    previous rb = Some (current ra).
Proof.
  apply (responses_are_chained [(lagos, 9%Z); (unknown, 10%Z)]
           zero_previous 0); reflexivity.
Defined.

(** X8. The recurrence does not depend on the starting state: in a run
    without storage failure, from any state, each response from the third
    on carries the counter of the response before it plus the counter of
    the one before that, the latter replaced by 1 when it is falsy. *)
Theorem recurrence_from_any_state (calls : list (LocationInfo * Z))
    (w : DurableObjectState) (i : nat) (a b c : result ResponseData) :
  faults w = [] ->
  fst (invocations calls w) !! i = Some a ->
  fst (invocations calls w) !! S i = Some b ->
  fst (invocations calls w) !! S (S i) = Some c ->
  exists ra rb rc, a = Ok ra /\ b = Ok rb /\ c = Ok rc /\
    counter (current rc) =
      JS.plus (JS.or_else (Some (counter (current ra))) 1%float)
              (counter (current rb)).
Proof.
  revert calls w. induction i as [|i IH]; intros calls w Hf Ha Hb Hc.
  - destruct calls as [|[loc1 now1] rest]; [discriminate Ha|].
    rewrite invocations_cons_ok in Ha, Hb, Hc by done.
    destruct rest as [|[loc2 now2] rest]; [discriminate Hb|].
    rewrite invocations_cons_ok in Hb, Hc by done.
    destruct rest as [|[loc3 now3] rest]; [discriminate Hc|].
    rewrite invocations_cons_ok in Hc by done.
    cbn [fst lookup list_lookup] in Ha, Hb, Hc.
    injection Ha as <-. injection Hb as <-. injection Hc as <-.
    eexists _, _, _. do 3 (split; [reflexivity|]).
    cbn [current]. unfold written at 1. cbn [counter storage].
    rewrite shifted_current, shifted_previous. cbn [storage].
    rewrite shifted_current. reflexivity.
  - destruct calls as [|[loc1 now1] rest]; [discriminate Ha|].
    rewrite invocations_cons_ok in Ha, Hb, Hc by done.
    cbn [fst] in Ha, Hb, Hc.
    exact (IH rest (mkState (shifted w loc1 now1) []) eq_refl Ha Hb Hc).
Qed.

Lemma recurrence_from_any_state_witness :
  exists ra rb rc,
    Ok (mkResponseData (mkStoredData 0%float unknown 1%Z)
          (Some (record (-1)%float))) = Ok ra /\
    Ok (mkResponseData (mkStoredData (-1)%float unknown 2%Z)
          (Some (mkStoredData 0%float unknown 1%Z))) = Ok rb /\
    Ok (mkResponseData (mkStoredData 0%float unknown 3%Z)
          (Some (mkStoredData (-1)%float unknown 2%Z))) = Ok rc /\
    counter (current rc) =
      JS.plus (JS.or_else (Some (counter (current ra))) 1%float)
              (counter (current rb)).
Proof.
  apply (recurrence_from_any_state
           [(unknown, 1%Z); (unknown, 2%Z); (unknown, 3%Z)] minus_one 0);
    reflexivity.
Defined.

Lemma fib_pair_infinite k :
  (1474 <= k)%nat -> snd (fib_pair k) = infinity.
Proof.
  intros Hk. destruct (decide (k = 1474%nat)) as [->|Hne].
  - vm_compute. reflexivity.
  - rewrite fib_pair_saturated; [reflexivity | unfold saturation; lia].
Qed.

(** X9. On a fresh actor the first 76 invocations return exact integers:
    the counter is the binary64 number of the integer sequence 2, 3, 5,
    8, ..., which stays below 2^53.  The 77th invocation is the first to
    return a rounded value. *)
Theorem counters_are_exact_up_to_76 (calls : list (LocationInfo * Z)) :
  let rs := fst (invocations calls fresh) in
  (forall n, (1 <= n <= length calls)%nat -> (n <= 76)%nat ->
     exists r, returned rs n r /\
       (snd (fib_pairZ (n - 1)) < 2 ^ 53)%Z /\
       counter (current r) = number_of_Z (snd (fib_pairZ (n - 1)))) /\
  ((77 <= length calls)%nat ->
     exists r, returned rs 77 r /\
       snd (fib_pairZ 76) = 14472334024676221%Z /\
       counter (current r) = 14472334024676220%float).
Proof.
  intros rs. subst rs. split.
  - intros n Hn H76.
    destruct (returned_fresh calls n Hn) as (r & Hr & Hc & _).
    destruct (counters_exact_below_2p53 (n - 1)) as [Hlt Heq]; [lia|].
    exists r. split; [exact Hr|]. split; [exact Hlt|]. by rewrite Hc.
  - intros Hlen.
    destruct (returned_fresh calls 77) as (r & Hr & Hc & _); [lia|].
    exists r. split; [exact Hr|].
    destruct counter_77_is_rounded as [Hz Hf].
    split; [exact Hz|]. rewrite Hc. exact Hf.
Qed.

Lemma counters_are_exact_up_to_76_witness :
  exists r, returned (fst (invocations five_calls fresh)) 5 r /\
    (13 < 2 ^ 53)%Z /\
    counter (current r) = number_of_Z 13%Z.
Proof.
  apply (proj1 (counters_are_exact_up_to_76 five_calls) 5%nat);
    simpl; lia.
Defined.

(** X10. On a fresh actor the returned counter is finite for the first
    1474 invocations and is Infinity from the 1475th on. *)
Theorem counter_overflows_at_1475 (calls : list (LocationInfo * Z))
    (n : nat) :
  (1 <= n <= length calls)%nat ->
  exists r, returned (fst (invocations calls fresh)) n r /\
    ((n <= 1474)%nat -> JS.isFinite (counter (current r)) = true) /\
    ((1475 <= n)%nat -> counter (current r) = infinity).
Proof.
  intros Hn.
  destruct (returned_fresh calls n Hn) as (r & Hr & Hc & _).
  exists r. split; [exact Hr|]. rewrite Hc. split; intros Hb.
  - apply fib_pair_finite. lia.
  - apply fib_pair_infinite. lia.
Qed.

Lemma counter_overflows_at_1475_witness :
  exists r, returned (fst (invocations five_calls fresh)) 5 r /\
    JS.isFinite (counter (current r)) = true.
Proof.
  destruct (counter_overflows_at_1475 five_calls 5) as (r & Hr & Hfin & _).
  - simpl. lia.
  - exists r. split; [exact Hr | apply Hfin; lia].
Defined.

(** ** The fetch handler *)

Lemma string_or_else_nonempty x :
  string_or_else x "Unknown" <> "".
Proof. destruct x as [[|c s]|]; discriminate. Qed.

Lemma string_or_else_supplied s d :
  s <> "" -> string_or_else (Some s) d = s.
Proof. destruct s; [done | reflexivity]. Qed.

Lemma getByName_insert env name w :
  getByName (mkEnv (<[name := w]> (MY_DURABLE_OBJECT env))) name = w.
Proof. unfold getByName. simpl. by rewrite lookup_insert_eq. Qed.

Lemma fetch_message request now env :
  pathname request = "/message" ->
  fetch request now env =
    (respond (fst (getCounter (locationInfoOf (cf request)) now
                     (getByName env "foo"))),
     mkEnv (<["foo" := snd (getCounter (locationInfoOf (cf request)) now
                              (getByName env "foo"))]>
              (MY_DURABLE_OBJECT env))).
Proof.
  intros Hp. unfold fetch, stub_getCounter. rewrite Hp. simpl.
  destruct (getCounter _ _ _) as [[data|] w']; reflexivity.
Qed.

Lemma fetch_other request now env :
  pathname request <> "/message" ->
  fetch request now env =
    (Ok {| body := Text "Durable Object is running";
           headers := [("content-type", "text/plain;charset=UTF-8")] |},
     env).
Proof.
  intros Hp. unfold fetch.
  by rewrite (proj2 (String.eqb_neq _ _) Hp).
Qed.

(** X11. The location the handler builds never has an empty field.
    Field by field, for each of the eight fields: it is the string
    supplied by [request.cf] when that is a non-empty string, and
    ["Unknown"] when it is missing or empty.  Without a [cf] object every
    field is ["Unknown"]; a [cf] object supplying eight non-empty strings
    is passed on unchanged. *)
Theorem location_fields_default_to_unknown :
  (forall cf, Forall (fun s => s <> "") (fields (locationInfoOf cf))) /\
  locationInfoOf None = unknown /\
  (forall c, Forall2 supplied_or_unknown
               (cf_fields c) (fields (locationInfoOf (Some c)))) /\
  (forall l, Forall (fun s => s <> "") (fields l) ->
     locationInfoOf (Some (cf_of_location l)) = l).
Proof.
  split; [|split; [reflexivity|split]].
  - intros cf. unfold fields, locationInfoOf. simpl.
    repeat constructor; apply string_or_else_nonempty.
  - intros [c1 c2 c3 c4 c5 c6 c7 c8].
    unfold cf_fields, fields, locationInfoOf. simpl.
    repeat constructor;
      match goal with
      | |- supplied_or_unknown ?x _ => by destruct x as [[|? ?]|]
      end.
  - intros [c1 c2 c3 c4 c5 c6 c7 c8] Hl. unfold fields in Hl. simpl in Hl.
    repeat match goal with
           | H : Forall _ (_ :: _) |- _ =>
               apply Forall_cons_1 in H; destruct H as [? H]
           end.
    unfold locationInfoOf, cf_of_location.
    cbn [mbind option_bind Cf.city Cf.country Cf.region Cf.timezone
         Cf.latitude Cf.longitude Cf.postalCode Cf.colo
         city country region timezone latitude longitude postalCode colo].
    by rewrite !string_or_else_supplied.
Qed.

Lemma location_fields_default_to_unknown_witness :
  locationInfoOf (Some (cf_of_location lagos)) = lagos /\
  Forall2 supplied_or_unknown
    [Some "Lagos"; Some "NG"; Some ""; None;
     Some "6.45407"; Some "3.39467"; None; Some "LOS"]
    ["Lagos"; "NG"; "Unknown"; "Unknown";
     "6.45407"; "3.39467"; "Unknown"; "LOS"].
Proof.
  destruct location_fields_default_to_unknown as (_ & _ & Hfield & Hround).
  split.
  - apply Hround. unfold fields, lagos. simpl.
    repeat constructor; discriminate.
  - exact (Hfield lagos_cf).
Defined.

(** X12. A request to [/message] invokes the instance named "foo" and no
    other.  When that instance meets no storage failure the handler
    answers with the JSON of the actor's response and the header
    Content-Type: application/json; the record it stores carries the
    location built from [request.cf].  When the invocation fails the
    handler fails too, without a response. *)
Theorem message_request_invokes_foo (request : Request) (now : Z)
    (env : Env) :
  pathname request = "/message" ->
  let foo := getByName env "foo" in
  let env' := snd (fetch request now env) in
  (forall name, name <> "foo" ->
     MY_DURABLE_OBJECT env' !! name = MY_DURABLE_OBJECT env !! name) /\
  (faults foo = [] ->
     exists data,
       fst (fetch request now env) =
         Ok {| body := JsonText (JSON.stringify data);
               headers := [("Content-Type", "application/json")] |} /\
       current data =
         {| counter := nextCounter (storage foo !! "current")
                                   (storage foo !! "previous");
            location := locationInfoOf (cf request);
            timestamp := now |} /\
       previous data = storage foo !! "current" /\
       storage (getByName env' "foo") !! "current" = Some (current data)) /\
  (fst (getCounter (locationInfoOf (cf request)) now foo) = Rejected ->
     fst (fetch request now env) = Rejected).
Proof.
  intros Hp foo env'. subst env'. rewrite (fetch_message _ _ _ Hp).
  fold foo. cbn [fst snd]. split; [|split].
  - intros name Hn. simpl. by rewrite lookup_insert_ne.
  - intros Hf. rewrite (getCounter_ok foo _ _ Hf). cbn [fst snd respond].
    eexists. split; [reflexivity|]. cbn [current previous].
    split; [reflexivity|]. split; [reflexivity|].
    rewrite getByName_insert. apply shifted_current.
  - intros ->. reflexivity.
Qed.

Lemma message_request_invokes_foo_witness :
  exists data,
    fst (fetch message_request 9%Z (mkEnv ∅)) =
      Ok {| body := JsonText (JSON.stringify data);
            headers := [("Content-Type", "application/json")] |} /\
    current data =
      {| counter := 2%float;
         location := mkLocationInfo "Lagos" "NG" "Unknown" "Unknown"
                       "6.45407" "3.39467" "Unknown" "LOS";
         timestamp := 9%Z |} /\
    previous data = None /\
    storage (getByName (snd (fetch message_request 9%Z (mkEnv ∅))) "foo")
      !! "current" = Some (current data).
Proof.
  destruct (message_request_invokes_foo message_request 9%Z (mkEnv ∅) eq_refl)
    as (_ & Hok & _).
  apply Hok. reflexivity.
Defined.

(** X13. The handler is a thin wrapper around the actor: after any
    sequence of requests, the state of the instance "foo" is the one
    reached by invoking the actor once per request to [/message], in
    order, with the location built from that request; requests to other
    paths leave no trace, and no other instance is ever changed. *)
Theorem actor_sees_only_message_requests (reqs : list (Request * Z))
    (env : Env) :
  getByName (snd (requests reqs env)) "foo" =
    snd (invocations (map call_of (List.filter is_message reqs))
                     (getByName env "foo")) /\
  forall name, name <> "foo" ->
    MY_DURABLE_OBJECT (snd (requests reqs env)) !! name =
      MY_DURABLE_OBJECT env !! name.
Proof.
  revert env. induction reqs as [|[request now] rest IH]; intros env.
  - split; reflexivity.
  - cbn [requests List.filter]. unfold is_message at 1. cbn [fst].
    destruct (String.eqb_spec (pathname request) "/message") as [Hp|Hp].
    + rewrite (fetch_message _ _ _ Hp).
      destruct (IH (mkEnv (<["foo" := snd (getCounter
                    (locationInfoOf (cf request)) now (getByName env "foo"))]>
                    (MY_DURABLE_OBJECT env)))) as [IH1 IH2].
      destruct (requests rest _) as [rs env2]. cbn [snd] in *.
      split.
      * rewrite IH1, getByName_insert. cbn [map invocations call_of fst snd].
        destruct (getCounter _ _ _) as [r w1]. cbn [snd].
        by destruct (invocations _ w1).
      * intros name Hn. rewrite (IH2 name Hn). simpl.
        by rewrite lookup_insert_ne.
    + rewrite (fetch_other _ _ _ Hp).
      destruct (IH env) as [IH1 IH2].
      destruct (requests rest env) as [rs env2]. cbn [snd] in *.
      split; [exact IH1 | exact IH2].
Qed.

(** X14. Requests to any path other than exactly [/message] are all
    answered with the text "Durable Object is running", carrying only the
    default header of a string body (content-type:
    text/plain;charset=UTF-8), and leave the state of every actor as it
    was, whatever storage failures are pending. *)
Theorem other_paths_never_invoke_the_actor (reqs : list (Request * Z))
    (env : Env) :
  Forall (fun p => pathname (fst p) <> "/message") reqs ->
  requests reqs env =
    (map (fun _ => Ok {| body := Text "Durable Object is running";
                         headers := [("content-type",
                                      "text/plain;charset=UTF-8")] |}) reqs,
     env).
Proof.
  induction 1 as [|[request now] rest Hp _ IH]; [reflexivity|].
  cbn [requests map]. rewrite (fetch_other _ _ _ Hp), IH. reflexivity.
Qed.

Lemma other_paths_never_invoke_the_actor_witness :
  requests [(other_request, 1%Z); (mkRequest "/Message" None, 2%Z);
            (mkRequest "/" (Some lagos_cf), 3%Z)]
           (mkEnv {[ "foo" := mkState (storage zero_previous) [true] ]}) =
    (map (fun _ => Ok {| body := Text "Durable Object is running";
                         headers := [("content-type",
                                      "text/plain;charset=UTF-8")] |})
         [(other_request, 1%Z); (mkRequest "/Message" None, 2%Z);
          (mkRequest "/" (Some lagos_cf), 3%Z)],
     mkEnv {[ "foo" := mkState (storage zero_previous) [true] ]}).
Proof.
  apply other_paths_never_invoke_the_actor.
  repeat constructor; discriminate.
Defined.

Lemma requests_messages reqs : forall env,
  Forall (fun p => pathname (fst p) = "/message") reqs ->
  fst (requests reqs env) =
    respond <$> fst (invocations (call_of <$> reqs) (getByName env "foo")).
Proof.
  induction reqs as [|[request now] rest IH]; intros env Hall; [reflexivity|].
  apply Forall_cons_1 in Hall. destruct Hall as [Hp Hall]. cbn [fst] in Hp.
  cbn [requests fmap list_fmap invocations call_of fst snd].
  rewrite (fetch_message _ _ _ Hp).
  specialize (IH (mkEnv (<["foo" := snd (getCounter
                    (locationInfoOf (cf request)) now (getByName env "foo"))]>
                    (MY_DURABLE_OBJECT env))) Hall).
  rewrite getByName_insert in IH.
  destruct (getCounter _ _ _) as [r w1]. cbn [fst snd] in *.
  destruct (requests rest _) as [rs env2].
  destruct (invocations _ w1) as [rs' w2]. cbn [fst] in *.
  by rewrite IH.
Qed.

(** X15. On a Worker whose instance "foo" does not exist yet, the n-th
    request to [/message] is answered with a JSON body whose
    current.counter is the n-th counter while that is finite, and [null]
    from the 1475th request on; previous is [null] for the first request
    only. *)
Theorem json_counter_is_null_after_overflow (reqs : list (Request * Z))
    (n : nat) :
  Forall (fun p => pathname (fst p) = "/message") reqs ->
  (1 <= n <= length reqs)%nat ->
  exists v,
    fst (requests reqs (mkEnv ∅)) !! (n - 1)%nat =
      Some (Ok {| body := JsonText v;
                  headers := [("Content-Type", "application/json")] |}) /\
    JSON.get ["current"; "counter"] v =
      Some (if (n <=? 1474)%nat then JNum (snd (fib_pair (n - 1)))
            else JNull) /\
    (JSON.get ["previous"] v = Some JNull <-> n = 1%nat).
Proof.
  intros Hall Hn.
  rewrite (requests_messages reqs (mkEnv ∅) Hall).
  change (getByName (mkEnv ∅) "foo") with fresh.
  destruct (returned_fresh (call_of <$> reqs) n) as (r & [_ Hr] & Hc & Hp).
  { by rewrite length_fmap. }
  exists (JSON.stringify r). rewrite list_lookup_fmap, Hr.
  split; [reflexivity|]. split.
  - cbn. unfold JSON.number. rewrite Hc.
    destruct (Nat.leb_spec n 1474) as [Hle|Hgt].
    + rewrite fib_pair_finite by lia. reflexivity.
    + rewrite fib_pair_infinite by lia. reflexivity.
  - cbn. destruct (previous r) as [pd|] eqn:Hpd.
    + split; [discriminate|].
      intros ->. discriminate Hp.
    + split; [|reflexivity]. intros _.
      destruct n as [|[|n]]; [lia | reflexivity | discriminate Hp].
Qed.

Lemma json_counter_is_null_after_overflow_witness :
  exists v,
    fst (requests [(message_request, 1%Z); (message_request, 2%Z)] (mkEnv ∅))
      !! 1%nat =
      Some (Ok {| body := JsonText v;
                  headers := [("Content-Type", "application/json")] |}) /\
    JSON.get ["current"; "counter"] v = Some (JNum 3%float) /\
    (JSON.get ["previous"] v = Some JNull <-> 2%nat = 1%nat).
Proof.
  apply (json_counter_is_null_after_overflow
           [(message_request, 1%Z); (message_request, 2%Z)] 2).
  - repeat constructor.
  - simpl. lia.
Defined.
